(** * Stock-broker dashboard: the mock server (src/mockServer.js)

    A shallow embedding of [createMockServer]: the in-memory store, the
    seeding of the per-account quotes ([randomPrice], [initAccountData]), the
    one-second price walk (the [setInterval] callback) and the path router
    ([apiFetch]), together with [callApi] of the dashboard component.

    Conventions of the embedding.

    - Numbers.  The prices are JavaScript numbers.  They are read here as
      exact rationals ([Q]): [+], [-], [*] are exact, and [+(x).toFixed(2)]
      is the rounding of [x] to a whole number of hundredths that
      [Number.prototype.toFixed] specifies.  The binary64 rounding of each
      operation, overflow to [Infinity] and [NaN] are outside the model.
    - Environment.  [Math.random()] and [Date.now()] are inputs: the k-th
      call of each returns the k-th element of a stream fixed in advance
      ([Env]); the heap records how many elements have been consumed.
    - Objects.  [store.accounts] and [store.accountData] are plain objects
      used as maps: own properties in insertion order, and behind them the
      properties inherited from [Object.prototype]. *)

From Stdlib Require Import List String Ascii Bool Arith ZArith QArith Qround Qabs Lia Lqa.
Import ListNotations.

Local Open Scope string_scope.
Local Open Scope Q_scope.

(** ** Numbers *)

Module Num.

(** [Math.max(a, b)] on two numbers. *)
Definition Math_max (a b : Q) : Q := if Qle_bool a b then b else a.

(** [+(x).toFixed(2)].  [toFixed] works on the absolute value: for
    [|x| >= 10^21] it prints the number itself, otherwise it takes the
    integer [n] with [n / 100] closest to [|x|], the larger one on a tie,
    and puts the sign back; the unary [+] reads the decimal string. *)
Definition toFixed2 (x : Q) : Q :=
  if Qle_bool (inject_Z (10 ^ 21)) (Qabs x) then x
  else
    let n := Qfloor (Qabs x * 100 + (1 # 2)) in
    if Qle_bool 0 x then inject_Z n / 100 else - (inject_Z n / 100).

End Num.
Import Num.


(** ** Plain objects used as maps *)

Module JSObject.

(** The own properties, in insertion order. *)
Definition t (A : Type) := list (string * A).

(** The property names every plain object inherits from
    [Object.prototype]; each of them holds a function, or the prototype
    object itself for [__proto__]: a truthy value. *)
Definition Object_prototype : list string :=
  [ "constructor"; "__defineGetter__"; "__defineSetter__"; "hasOwnProperty";
    "__lookupGetter__"; "__lookupSetter__"; "isPrototypeOf";
    "propertyIsEnumerable"; "toString"; "valueOf"; "__proto__";
    "toLocaleString" ].

Inductive property (A : Type) :=
| Own (a : A)
| Inherited (name : string)
| Undefined.
Arguments Own {A} a.
Arguments Inherited {A} name.
Arguments Undefined {A}.

Definition inherited (k : string) : bool := existsb (String.eqb k) Object_prototype.

Fixpoint own {A} (o : t A) (k : string) : option A :=
  match o with
  | [] => None
  | (k', v) :: rest => if String.eqb k' k then Some v else own rest k
  end.

(** [o[k]]: the own property, else the one found on the prototype. *)
Definition get {A} (o : t A) (k : string) : property A :=
  match own o k with
  | Some v => Own v
  | None => if inherited k then Inherited k else Undefined
  end.

(** [o[k] = v] for an ordinary key: overwrite in place or append. *)
Fixpoint set {A} (o : t A) (k : string) (v : A) : t A :=
  match o with
  | [] => [(k, v)]
  | (k', v') :: rest =>
      if String.eqb k' k then (k, v) :: rest else (k', v') :: set rest k v
  end.

Definition keys {A} (o : t A) : list string := map fst o.
Definition values {A} (o : t A) : list A := map snd o.

End JSObject.

(** ** The store *)

Module Company.
Record t := { id : string; name : string }.
End Company.

Module Account.
Record t := { id : string; name : string; stocks : list string }.
End Account.

Module Quote.
Record t := { ticker : string; price : Q; change : Q; updatedAt : Z }.
End Quote.

Module AccountData.
Record t := { stocks : list Quote.t }.
End AccountData.

Record Store := {
  companies : list Company.t;
  accounts : JSObject.t (list Account.t);
  accountData : JSObject.t AccountData.t
}.

Definition store0 : Store := {|
  companies :=
    [ {| Company.id := "c1"; Company.name := "Sumaiya Tech" |};
      {| Company.id := "c2"; Company.name := "Fathima Holdings" |} ];
  accounts :=
    [ ("c1",
       [ {| Account.id := "a1"; Account.name := "Sumaiya - Account 1";
            Account.stocks := ["GOOG"; "TSLA"; "AMZN"] |};
         {| Account.id := "a2"; Account.name := "Sumaiya - Account 2";
            Account.stocks := ["META"; "NVDA"] |} ]);
      ("c2",
       [ {| Account.id := "b1"; Account.name := "Fathima - Account 1";
            Account.stocks := ["TSLA"; "NVDA"] |};
         {| Account.id := "b2"; Account.name := "Fathima - Account 2";
            Account.stocks := ["GOOG"; "AMZN"; "META"] |} ]) ];
  accountData := []
|}.

(** ** Effects: the environment, the heap and the monad of the server code *)

Record Env := {
  random : nat -> Q;   (* the successive results of Math.random() *)
  now : nat -> Z       (* the successive results of Date.now() *)
}.

Record Heap := {
  store : Store;
  randoms : nat;       (* calls of Math.random() so far *)
  clocks : nat         (* calls of Date.now() so far *)
}.

Definition JS (A : Type) : Type := Heap -> A * Heap.

Definition ret {A} (a : A) : JS A := fun h => (a, h).

Definition bind {A B} (m : JS A) (k : A -> JS B) : JS B :=
  fun h => let (a, h') := m h in k a h'.

Notation "x <- m ;; k" := (bind m (fun x => k))
  (at level 61, m at next level, right associativity).

Fixpoint mapM {A B} (f : A -> JS B) (l : list A) : JS (list B) :=
  match l with
  | [] => ret []
  | a :: rest => b <- f a ;; bs <- mapM f rest ;; ret (b :: bs)
  end.

Fixpoint forEach {A} (f : A -> JS unit) (l : list A) : JS unit :=
  match l with
  | [] => ret tt
  | a :: rest => _ <- f a ;; forEach f rest
  end.

Definition with_accountData (f : JSObject.t AccountData.t -> JSObject.t AccountData.t) : JS unit :=
  fun h =>
    (tt, {| store := {| companies := companies (store h);
                        accounts := accounts (store h);
                        accountData := f (accountData (store h)) |};
            randoms := randoms h; clocks := clocks h |}).

Definition heap0 : Heap := {| store := store0; randoms := 0; clocks := 0 |}.

Section Server.

Variable env : Env.

Definition Math_random : JS Q :=
  fun h => (random env (randoms h),
            {| store := store h; randoms := S (randoms h); clocks := clocks h |}).

Definition Date_now : JS Z :=
  fun h => (now env (clocks h),
            {| store := store h; randoms := randoms h; clocks := S (clocks h) |}).

(** [randomPrice(base)]. *)
Definition randomPrice (base : Q) : JS Q :=
  r <- Math_random ;;
  ret (toFixed2 (base + r * base)).

(** The object literal built for one ticker in [initAccountData]. *)
Definition new_quote (ticker : string) : JS Quote.t :=
  p <- randomPrice 100 ;;
  t <- Date_now ;;
  ret {| Quote.ticker := ticker; Quote.price := p; Quote.change := 0; Quote.updatedAt := t |}.

Definition init_account (acc : Account.t) : JS unit :=
  data <- mapM new_quote (Account.stocks acc) ;;
  with_accountData (fun o => JSObject.set o (Account.id acc) {| AccountData.stocks := data |}).

(** [initAccountData()]: every account of every company, in the order of
    [Object.values(store.accounts).flat()]. *)
Definition initAccountData : JS unit :=
  fun h => forEach init_account (List.concat (JSObject.values (accounts (store h)))) h.

(** [(Math.random() - 0.5) * (s.price * 0.02)], for the draw [r]. *)
Definition delta (r price : Q) : Q := (r - (1 # 2)) * (price * (2 # 100)).

(** The body of the inner [forEach] of the timer callback, on one quote
    [s], given the results [r] of [Math.random()] and [t] of
    [Date.now()]. *)
Definition perturb (r : Q) (t : Z) (s : Quote.t) : Quote.t :=
  let delta := delta r (Quote.price s) in
  let newPrice := Math_max (1 # 100) (toFixed2 (Quote.price s + delta)) in
  {| Quote.ticker := Quote.ticker s;
     Quote.price := newPrice;
     Quote.change := toFixed2 (newPrice - Quote.price s);
     Quote.updatedAt := t |}.

Definition tick_quote (s : Quote.t) : JS Quote.t :=
  r <- Math_random ;;
  t <- Date_now ;;
  ret (perturb r t s).

Definition tick_account (entry : string * AccountData.t) : JS (string * AccountData.t) :=
  stocks' <- mapM tick_quote (AccountData.stocks (snd entry)) ;;
  ret (fst entry, {| AccountData.stocks := stocks' |}).

(** The timer callback.  [Object.keys(store.accountData)] lists the own
    keys in insertion order and [store.accountData[accId]] reads each own
    entry back, whose quotes are updated in place: a traversal of the own
    entries. *)
Definition tick : JS unit :=
  fun h =>
    let (data', h') := mapM tick_account (accountData (store h)) h in
    with_accountData (fun _ => data') h'.

(** The heap once [createMockServer] has returned, and after the timer
    has fired [n] times. *)
Definition boot : Heap := snd (initAccountData heap0).

Fixpoint after_ticks (n : nat) : Heap :=
  match n with
  | O => boot
  | S k => snd (tick (after_ticks k))
  end.

End Server.

(** ** [new URL(path, "http://localhost").pathname]

    The part of the URL Standard's parser that a reference relative to the
    base [http://localhost] goes through: the input is trimmed, a string
    starting with one slash or with no slash is parsed as a path, and its
    dot segments are resolved.  A reference with two leading slashes and
    nothing behind them has an empty host, which the parser refuses.  Inputs
    that carry a scheme or a host of their own need the host parser and are
    left outside the model ([Unmodelled]).  A string stands for the UTF-8
    bytes of the JavaScript string. *)

Module URL.

Inductive result :=
| Pathname (p : string)
| TypeError
| Unmodelled.

Definition code (c : ascii) : nat := nat_of_ascii c.

Definition is_c0_or_space (c : ascii) : bool := (code c <=? 32)%nat.

Definition is_tab_or_newline (c : ascii) : bool :=
  ((code c =? 9) || (code c =? 10) || (code c =? 13))%nat.

Definition is_alpha (c : ascii) : bool :=
  (((65 <=? code c) && (code c <=? 90)) || ((97 <=? code c) && (code c <=? 122)))%nat.

Definition is_digit (c : ascii) : bool := ((48 <=? code c) && (code c <=? 57))%nat.

Definition is_scheme_char (c : ascii) : bool :=
  is_alpha c || is_digit c || Ascii.eqb c "+" || Ascii.eqb c "-" || Ascii.eqb c ".".

Definition backslash : ascii := ascii_of_nat 92.

(** The base is special ([http]): a backslash counts as a slash. *)
Definition is_slash (c : ascii) : bool := Ascii.eqb c "/" || Ascii.eqb c backslash.

Definition ends_path (c : ascii) : bool := Ascii.eqb c "?" || Ascii.eqb c "#".

Fixpoint drop_while (p : ascii -> bool) (l : list ascii) : list ascii :=
  match l with
  | [] => []
  | c :: rest => if p c then drop_while p rest else l
  end.

Definition preprocess (l : list ascii) : list ascii :=
  let trimmed := rev (drop_while is_c0_or_space (rev (drop_while is_c0_or_space l))) in
  filter (fun c => negb (is_tab_or_newline c)) trimmed.

Definition has_scheme (l : list ascii) : bool :=
  match l with
  | c :: rest =>
      is_alpha c &&
      match drop_while is_scheme_char rest with
      | d :: _ => Ascii.eqb d ":"
      | [] => false
      end
  | [] => false
  end.

(** The path percent-encode set. *)
Definition in_path_percent_encode_set (c : ascii) : bool :=
  ((code c <=? 31) || (126 <? code c)
   || existsb (Nat.eqb (code c)) [32; 34; 35; 60; 62; 63; 94; 96; 123; 125])%nat.

Definition hex_digit (n : nat) : ascii :=
  if (n <? 10)%nat then ascii_of_nat (48 + n) else ascii_of_nat (55 + n).

Definition percent_encode (c : ascii) : list ascii :=
  [ "%"%char; hex_digit (code c / 16); hex_digit (code c mod 16) ].

Definition lower (c : ascii) : ascii :=
  if ((65 <=? code c) && (code c <=? 90))%nat then ascii_of_nat (code c + 32) else c.

Definition same_segment (a : list ascii) (b : string) : bool :=
  String.eqb (string_of_list_ascii (map lower a)) b.

Definition is_single_dot (buffer : list ascii) : bool :=
  same_segment buffer "." || same_segment buffer "%2e".

Definition is_double_dot (buffer : list ascii) : bool :=
  same_segment buffer ".." || same_segment buffer ".%2e"
  || same_segment buffer "%2e." || same_segment buffer "%2e%2e".

(** What the path state does with the buffer when it meets the end of a
    segment; [slash] tells whether a slash ended it. *)
Definition close_segment (path : list (list ascii)) (buffer : list ascii) (slash : bool)
  : list (list ascii) :=
  if is_double_dot buffer then
    (if slash then removelast path else removelast path ++ [[]])
  else if is_single_dot buffer then
    (if slash then path else path ++ [[]])
  else path ++ [buffer].

Fixpoint path_state (input : list ascii) (path : list (list ascii)) (buffer : list ascii)
  : list (list ascii) :=
  match input with
  | [] => close_segment path buffer false
  | c :: rest =>
      if is_slash c then path_state rest (close_segment path buffer true) []
      else if ends_path c then close_segment path buffer false
      else path_state rest path
             (buffer ++ if in_path_percent_encode_set c then percent_encode c else [c])
  end.

(** The [pathname] getter: every segment behind a slash. *)
Definition serialize (path : list (list ascii)) : string :=
  String.concat EmptyString (map (fun seg => String "/" (string_of_list_ascii seg)) path).

Definition pathname (input : string) : result :=
  let l := preprocess (list_ascii_of_string input) in
  if has_scheme l then Unmodelled
  else
    match l with
    | [] => Pathname "/"
    | c :: rest =>
        if is_slash c then
          match rest with
          | c' :: rest' =>
              if is_slash c' then
                match drop_while is_slash rest' with
                | [] => TypeError
                | d :: _ => if ends_path d then TypeError else Unmodelled
                end
              else Pathname (serialize (path_state rest [] []))
          | [] => Pathname (serialize (path_state rest [] []))
          end
        else if ends_path c then Pathname "/"
        else Pathname (serialize (path_state l [] []))
    end.

End URL.

(** ** The router *)

(** What a [json()] closure of a response can return. *)
Inductive JSValue :=
| Companies (l : list Company.t)
| Accounts (l : list Account.t)
| Data (d : AccountData.t)
| ErrorBody (error : string)
| Builtin (name : string).   (* a member of Object.prototype *)

(** [{ status, json }]; [json] reads the store when it is called. *)
Record Response := {
  status : Z;
  json : Store -> JSValue
}.

Inductive completion (A : Type) :=
| Returned (a : A)
| Threw (e : string)
| NotModelled.
Arguments Returned {A} a.
Arguments Threw {A} e.
Arguments NotModelled {A}.

(** [s.split("/")]. *)
Fixpoint split (sep : ascii) (s : string) : list string :=
  match s with
  | EmptyString => [EmptyString]
  | String c rest =>
      match split sep rest with
      | piece :: pieces =>
          if Ascii.eqb c sep then EmptyString :: piece :: pieces else String c piece :: pieces
      | [] => []
      end
  end.

(** [.filter(Boolean)] on strings: the empty string is the falsy one. *)
Definition filter_Boolean (l : list string) : list string :=
  filter (fun s => negb (String.eqb s EmptyString)) l.

(** [parts[i] === s], where [parts[i]] may be [undefined]. *)
Definition strict_eq (x : option string) (s : string) : bool :=
  match x with
  | Some x' => String.eqb x' s
  | None => false
  end.

(** The property key a value is converted to. *)
Definition property_key (x : option string) : string :=
  match x with
  | Some x' => x'
  | None => "undefined"
  end.

(** The three [json] closures that read the store. *)
Definition listCompanies (st : Store) : JSValue := Companies (companies st).

(** [store.accounts[companyId] || []] *)
Definition listAccounts (companyId : option string) (st : Store) : JSValue :=
  match JSObject.get (accounts st) (property_key companyId) with
  | JSObject.Own l => Accounts l
  | JSObject.Inherited name => Builtin name
  | JSObject.Undefined => Accounts []
  end.

(** [store.accountData[accountId] || { stocks: [] }] *)
Definition getAccountQuotes (accountId : option string) (st : Store) : JSValue :=
  match JSObject.get (accountData st) (property_key accountId) with
  | JSObject.Own d => Data d
  | JSObject.Inherited name => Builtin name
  | JSObject.Undefined => Data {| AccountData.stocks := [] |}
  end.

Definition not_found : Response :=
  {| status := 404; json := fun _ => ErrorBody "not found" |}.

(** The body of [apiFetch] from [parts] on. *)
Definition route (parts : list string) : Response :=
  let second :=
    if strict_eq (nth_error parts 0) "accounts" then
      let accountId := nth_error parts 1 in
      if strict_eq (nth_error parts 2) "data"
      then {| status := 200; json := getAccountQuotes accountId |}
      else not_found
    else not_found in
  if strict_eq (nth_error parts 0) "companies" then
    if (List.length parts =? 1)%nat then {| status := 200; json := listCompanies |}
    else
      let companyId := nth_error parts 1 in
      if strict_eq (nth_error parts 2) "accounts"
      then {| status := 200; json := listAccounts companyId |}
      else second
  else second.

Definition parts_of (pathname : string) : list string :=
  filter_Boolean (split "/" pathname).

(** [apiFetch(path)], the 120 ms delay apart. *)
Definition apiFetch (path : string) : completion Response :=
  match URL.pathname path with
  | URL.Pathname p => Returned (route (parts_of p))
  | URL.TypeError => Threw "TypeError: Invalid URL"
  | URL.Unmodelled => NotModelled
  end.

(** [callApi(path)] of the dashboard. *)
Definition callApi (path : string) (st : Store) : completion JSValue :=
  match apiFetch path with
  | Returned res =>
      if ((200 <=? status res) && (status res <? 300))%Z
      then Returned (json res st)
      else Threw "Error: API error"
  | Threw e => Threw e
  | NotModelled => NotModelled
  end.

(** ** The life of the server as a sequence of events *)



(** ** The spec's reading of the three path patterns *)

(** [/companies], [/companies/{companyId}/accounts] and
    [/accounts/{accountId}/data], with a non-empty id. *)
Definition matches_pattern (path : string) : bool :=
  match split "/" path with
  | [ lead; a ] => String.eqb lead EmptyString && String.eqb a "companies"
  | [ lead; a; id; c ] =>
      String.eqb lead EmptyString && negb (String.eqb id EmptyString) &&
      ((String.eqb a "companies" && String.eqb c "accounts")
       || (String.eqb a "accounts" && String.eqb c "data"))
  | _ => false
  end.

(** The shapes of [parts] the router answers with 200: [companies] alone,
    or [companies], an id and [accounts], or [accounts], an id and [data],
    and then anything. *)
Definition served (parts : list string) : bool :=
  match parts with
  | [ a ] => String.eqb a "companies"
  | a :: _ :: c :: _ =>
      (String.eqb a "companies" && String.eqb c "accounts")
      || (String.eqb a "accounts" && String.eqb c "data")
  | _ => false
  end.

(** The tickers of every account, in order. *)
Definition tickers (o : JSObject.t AccountData.t) : list (string * list string) :=
  map (fun entry => (fst entry, map Quote.ticker (AccountData.stocks (snd entry)))) o.

(** A price with at most two decimals. *)
Definition two_decimals (p : Q) : Prop := exists n : Z, p == inject_Z n / 100.

(** [p'] within 2 % of [p]. *)
Definition within_2_percent (p p' : Q) : Prop :=
  p - (2 # 100) * p <= p' /\ p' <= p + (2 # 100) * p.

(** Every quote of the store satisfies [P]. *)
Definition all_quotes (P : Quote.t -> Prop) (st : Store) : Prop :=
  Forall (fun entry => Forall P (AccountData.stocks (snd entry))) (accountData st).

(** The same accounts in the same order, and [R] between the quotes at the
    same place. *)
Definition quotewise (R : Quote.t -> Quote.t -> Prop) (st st' : Store) : Prop :=
  Forall2 (fun entry entry' =>
             fst entry = fst entry' /\
             Forall2 R (AccountData.stocks (snd entry)) (AccountData.stocks (snd entry')))
          (accountData st) (accountData st').

(** ** Sample runs *)

Definition steady : Env := {| random := fun _ => 1 # 2; now := fun k => (1700000000000 + Z.of_nat k)%Z |}.
Definition high_draws : Env := {| random := fun _ => 99999 # 100000; now := fun _ => 0%Z |}.

(** ** Views of the store and of a path used in the statements *)

(** Every quote of the store, account after account. *)
Definition flat_quotes (st : Store) : list Quote.t :=
  List.concat (map (fun entry => AccountData.stocks (snd entry)) (accountData st)).

(** The path [/s1/s2/...] with the given segments. *)
Fixpoint path_of (segments : list string) : string :=
  match segments with
  | [] => EmptyString
  | segment :: rest => String "/" (segment ++ path_of rest)
  end.

(** Letters and digits only. *)
Definition alphanumeric (s : string) : bool :=
  forallb (fun c => URL.is_alpha c || URL.is_digit c) (list_ascii_of_string s).

(** No control character and no space. *)
Definition quiet (s : string) : bool :=
  forallb (fun c => negb (URL.is_c0_or_space c)) (list_ascii_of_string s).

Definition slash_free (s : string) : bool :=
  forallb (fun c => negb (Ascii.eqb c "/")) (list_ascii_of_string s).

(** The quotes [l] after the walk, when the first of them gets the draw
    number [r] and the clock reading number [c]. *)
Fixpoint walk (env : Env) (r c : nat) (l : list Quote.t) : list Quote.t :=
  match l with
  | [] => []
  | q :: rest => perturb (random env r) (now env c) q :: walk env (S r) (S c) rest
  end.

(** The quote the seeding makes for [ticker] from the draw number [r] and
    the clock reading number [c], and the quotes it makes for a list of
    tickers when the first of them gets the numbers [r] and [c]. *)
Definition seeded (env : Env) (r c : nat) (ticker : string) : Quote.t :=
  {| Quote.ticker := ticker; Quote.price := toFixed2 (100 + random env r * 100);
     Quote.change := 0; Quote.updatedAt := now env c |}.

Fixpoint seed (env : Env) (r c : nat) (l : list string) : list Quote.t :=
  match l with
  | [] => []
  | ticker :: rest => seeded env r c ticker :: seed env (S r) (S c) rest
  end.

(** The entries the seeding makes for a list of accounts. *)
Fixpoint entries (env : Env) (r c : nat) (accs : list Account.t) : JSObject.t AccountData.t :=
  match accs with
  | [] => []
  | acc :: rest =>
      (Account.id acc, {| AccountData.stocks := seed env r c (Account.stocks acc) |})
      :: entries env (r + List.length (Account.stocks acc)) (c + List.length (Account.stocks acc)) rest
  end.

(** The accounts of every company, in the order of
    [Object.values(store.accounts).flat()]. *)
Definition all_accounts (st : Store) : list Account.t :=
  List.concat (JSObject.values (accounts st)).

(** The quote was stamped by one of the first [c] clock readings. *)
Definition stamped (env : Env) (c : nat) (q : Quote.t) : Prop :=
  exists j, (j < c)%nat /\ Quote.updatedAt q = now env j.

(** The heap after [k] more calls of [Math.random()] and of [Date.now()]. *)
Definition advance (k : nat) (h : Heap) : Heap :=
  {| store := store h; randoms := randoms h + k; clocks := clocks h + k |}.


Lemma Math_max_lb_r a b : b <= Math_max a b.
Proof.
  unfold Math_max. destruct (Qle_bool a b) eqn:E.
  - apply Qle_refl.
  - apply Qlt_le_weak, Qnot_le_lt. intro H. apply Qle_bool_iff in H. congruence.
Qed.

Lemma Math_max_r a b : a <= b -> Math_max a b = b.
Proof.
  intro H. unfold Math_max. apply Qle_bool_iff in H. now rewrite H.
Qed.

(** The rounding of a non-negative number below [10^21]. *)
Lemma toFixed2_nonneg x :
  0 <= x -> x < inject_Z (10 ^ 21) ->
  toFixed2 x = inject_Z (Qfloor (Qabs x * 100 + (1 # 2))) / 100.
Proof.
  intros H0 H1. unfold toFixed2.
  destruct (Qle_bool (inject_Z (10 ^ 21)) (Qabs x)) eqn:E.
  - apply Qle_bool_iff in E. rewrite (Qabs_pos x H0) in E. lra.
  - apply Qle_bool_iff in H0. now rewrite H0.
Qed.

Lemma floor_cents_lb (x : Q) (n : Z) :
  inject_Z n <= x * 100 + (1 # 2) -> inject_Z n / 100 <= inject_Z (Qfloor (x * 100 + (1 # 2))) / 100.
Proof.
  intro H. apply Qfloor_resp_le in H. rewrite Qfloor_Z in H.
  rewrite Zle_Qle in H. apply Qmult_le_compat_r; [exact H | discriminate].
Qed.

Lemma floor_cents_near (y : Q) :
  y - (1 # 2) <= inject_Z (Qfloor (y + (1 # 2))) /\ inject_Z (Qfloor (y + (1 # 2))) <= y + (1 # 2).
Proof.
  split.
  - pose proof (Qlt_floor (y + (1 # 2))) as H.
    rewrite inject_Z_plus in H. change (inject_Z 1) with 1 in H. lra.
  - apply Qfloor_le.
Qed.


(** Division by the constant 100, in the form linear arithmetic reads. *)
Ltac cents := unfold Qdiv in *; change (/ 100) with (1 # 100) in *.

(** Rounding to hundredths, against a bound that is itself a whole number
    of hundredths. *)
Lemma toFixed2_ge (x : Q) (n : Z) :
  0 <= x -> inject_Z n <= x * 100 + (1 # 2) -> inject_Z n / 100 <= inject_Z (10 ^ 21) ->
  inject_Z n / 100 <= toFixed2 x.
Proof.
  intros H0 Hn Hbig. unfold toFixed2.
  destruct (Qle_bool (inject_Z (10 ^ 21)) (Qabs x)) eqn:E.
  - apply Qle_bool_iff in E. rewrite (Qabs_pos x H0) in E.
    exact (Qle_trans _ _ _ Hbig E).
  - apply Qle_bool_iff in H0. rewrite H0. apply Qle_bool_iff in H0.
    apply floor_cents_lb. rewrite (Qabs_pos x H0). exact Hn.
Qed.

Lemma floor_half_le (y : Q) (n : Z) :
  y <= inject_Z n -> (Qfloor (y + (1 # 2)) <= n)%Z.
Proof.
  intro H. destruct (Z_le_gt_dec (Qfloor (y + (1 # 2))) n) as [L | G]; [exact L | exfalso].
  assert (n + 1 <= Qfloor (y + (1 # 2)))%Z as G' by lia.
  rewrite Zle_Qle, inject_Z_plus in G'. change (inject_Z 1) with 1 in G'.
  pose proof (Qfloor_le (y + (1 # 2))). lra.
Qed.

Lemma toFixed2_le (x : Q) (n : Z) :
  0 <= x -> x <= inject_Z n / 100 -> toFixed2 x <= inject_Z n / 100.
Proof.
  intros H0 Hn. unfold toFixed2.
  destruct (Qle_bool (inject_Z (10 ^ 21)) (Qabs x)) eqn:E; [exact Hn |].
  apply Qle_bool_iff in H0. rewrite H0. apply Qle_bool_iff in H0.
  apply Qmult_le_compat_r; [| discriminate].
  rewrite <- Zle_Qle. apply floor_half_le. rewrite (Qabs_pos x H0). cents. lra.
Qed.

Lemma toFixed2_near (x : Q) :
  0 <= x -> x - (1 # 200) <= toFixed2 x /\ toFixed2 x <= x + (1 # 200).
Proof.
  intro H0. unfold toFixed2.
  destruct (Qle_bool (inject_Z (10 ^ 21)) (Qabs x)) eqn:E; [lra |].
  apply Qle_bool_iff in H0. rewrite H0. apply Qle_bool_iff in H0.
  rewrite (Qabs_pos x H0).
  destruct (floor_cents_near (x * 100)) as [L U]. cents. lra.
Qed.

Lemma toFixed2_nonpos (x : Q) : x <= 0 -> toFixed2 x <= 0.
Proof.
  intro H0. unfold toFixed2.
  destruct (Qle_bool (inject_Z (10 ^ 21)) (Qabs x)) eqn:E; [exact H0 |].
  assert (0 <= inject_Z (Qfloor (Qabs x * 100 + (1 # 2)))) as F.
  { change 0 with (inject_Z 0). rewrite <- Zle_Qle.
    rewrite <- (Qfloor_Z 0). apply Qfloor_resp_le.
    pose proof (Qabs_nonneg x). change (inject_Z 0) with 0. lra. }
  destruct (Qle_bool 0 x) eqn:S.
  - apply Qle_bool_iff in S. assert (x == 0) as Z0 by lra.
    rewrite Z0. vm_compute. discriminate.
  - cents. lra.
Qed.

Lemma toFixed2_two_decimals (x : Q) :
  0 <= x -> x < inject_Z (10 ^ 21) -> two_decimals (toFixed2 x).
Proof.
  intros H0 H1. rewrite (toFixed2_nonneg x H0 H1). eexists. reflexivity.
Qed.

(** ** One quote *)

(** The perturbation is at most one percent of the price. *)
Lemma delta_bound (r p : Q) :
  0 <= r -> r < 1 -> 0 <= p ->
  - ((1 # 100) * p) <= delta r p /\ delta r p <= (1 # 100) * p.
Proof.
  intros R0 R1 P0. unfold delta.
  assert (0 <= p * (2 # 100)) as K by lra.
  pose proof (Qmult_le_compat_r (- (1 # 2)) (r - (1 # 2)) (p * (2 # 100))) as L.
  pose proof (Qmult_le_compat_r (r - (1 # 2)) (1 # 2) (p * (2 # 100))) as U.
  assert (- (1 # 2) <= r - (1 # 2)) as A by lra.
  assert (r - (1 # 2) <= 1 # 2) as B by lra.
  specialize (L A K). specialize (U B K). lra.
Qed.


Lemma perturb_change (r : Q) (t : Z) (q : Quote.t) :
  Quote.change (perturb r t q) = toFixed2 (Quote.price (perturb r t q) - Quote.price q).
Proof. reflexivity. Qed.

Lemma perturb_ticker (r : Q) (t : Z) (q : Quote.t) :
  Quote.ticker (perturb r t q) = Quote.ticker q.
Proof. reflexivity. Qed.

(** From half a unit on, the rounded price is the clamped one, it stays
    above half a unit, and it moves by at most the perturbation plus half a
    hundredth. *)
Lemma perturb_walk (r : Q) (t : Z) (q : Quote.t) :
  0 <= r -> r < 1 -> 1 # 2 <= Quote.price q ->
  1 # 2 <= Quote.price (perturb r t q) /\
  within_2_percent (Quote.price q) (Quote.price (perturb r t q)).
Proof.
  intros R0 R1 P. unfold perturb, within_2_percent. cbn [Quote.price].
  set (p := Quote.price q) in *.
  set (x := p + delta r p).
  destruct (delta_bound r p R0 R1) as [L U]; [lra |].
  assert (0 <= x) as X0 by (unfold x; lra).
  assert (1 # 2 <= toFixed2 x) as T.
  { apply Qle_trans with (inject_Z 50 / 100); [vm_compute; discriminate |].
    apply toFixed2_ge; [exact X0 | | vm_compute; discriminate].
    change (inject_Z 50) with 50. unfold x. lra. }
  destruct (toFixed2_near x X0) as [N1 N2].
  rewrite Math_max_r by lra.
  unfold x in *. repeat split; lra.
Qed.

(** The seed price for base 100. *)
Lemma seed_range (r : Q) :
  0 <= r -> r < 1 ->
  100 <= toFixed2 (100 + r * 100) /\ toFixed2 (100 + r * 100) <= 200 /\
  two_decimals (toFixed2 (100 + r * 100)).
Proof.
  intros R0 R1. assert (0 <= 100 + r * 100) as X0 by lra.
  split; [| split].
  - apply Qle_trans with (inject_Z 10000 / 100); [vm_compute; discriminate |].
    apply toFixed2_ge; [exact X0 | | vm_compute; discriminate].
    change (inject_Z 10000) with 10000. lra.
  - apply Qle_trans with (inject_Z 20000 / 100); [| vm_compute; discriminate].
    apply toFixed2_le; [exact X0 |]. cents. change (inject_Z 20000) with 20000. lra.
  - apply toFixed2_two_decimals; [exact X0 |].
    change (inject_Z (10 ^ 21)) with 1000000000000000000000. lra.
Qed.

(** ** Traversals *)

Lemma mapM_Forall2 {A B} (f : A -> JS B) (P : A -> Prop) (R : A -> B -> Prop) :
  (forall a h, P a -> R a (fst (f a h))) ->
  forall l h, Forall P l -> Forall2 R l (fst (mapM f l h)).
Proof.
  intros Hf l. induction l as [| a l IH]; intros h Hl; cbn.
  - constructor.
  - inversion Hl as [| ? ? Pa Pl]; subst. unfold bind.
    specialize (Hf a h Pa). destruct (f a h) as [b h1].
    specialize (IH h1 Pl). destruct (mapM f l h1) as [bs h2].
    constructor; assumption.
Qed.

Lemma mapM_store {A B} (f : A -> JS B) :
  (forall a h, store (snd (f a h)) = store h) ->
  forall l h, store (snd (mapM f l h)) = store h.
Proof.
  intros Hf l. induction l as [| a l IH]; intro h; cbn; [reflexivity |].
  unfold bind. specialize (Hf a h). destruct (f a h) as [b h1].
  specialize (IH h1). destruct (mapM f l h1) as [bs h2]. cbn in *. congruence.
Qed.

Lemma forEach_invariant {A} (f : A -> JS unit) (I : Heap -> Prop) :
  (forall a h, I h -> I (snd (f a h))) ->
  forall l h, I h -> I (snd (forEach f l h)).
Proof.
  intros Hf l. induction l as [| a l IH]; intros h Hh; cbn; [exact Hh |].
  unfold bind. specialize (Hf a h Hh). destruct (f a h) as [u h1]. now apply IH.
Qed.

Lemma Forall2_right {A B} (P : B -> Prop) (l : list A) (l' : list B) :
  Forall2 (fun _ b => P b) l l' -> Forall P l'.
Proof. induction 1; constructor; assumption. Qed.

Lemma Forall2_weaken {A B} (R R' : A -> B -> Prop) (l : list A) (l' : list B) :
  (forall a b, R a b -> R' a b) -> Forall2 R l l' -> Forall2 R' l l'.
Proof. intro H. induction 1; constructor; auto. Qed.

Lemma set_Forall {A} (P : string * A -> Prop) (o : JSObject.t A) (k : string) (v : A) :
  Forall P o -> P (k, v) -> Forall P (JSObject.set o k v).
Proof.
  intros Ho Hv. induction Ho as [| [k' v'] rest Hx Hrest IH]; cbn.
  - constructor; [exact Hv | constructor].
  - destruct (String.eqb k' k); constructor; assumption.
Qed.

Lemma quotewise_right (P : Quote.t -> Prop) (st st' : Store) :
  quotewise (fun _ q' => P q') st st' -> all_quotes P st'.
Proof.
  unfold quotewise, all_quotes. induction 1 as [| e e' l l' [_ H] _ IH]; constructor.
  - exact (Forall2_right P _ _ H).
  - exact IH.
Qed.

Lemma quotewise_weaken (R R' : Quote.t -> Quote.t -> Prop) (st st' : Store) :
  (forall q q', R q q' -> R' q q') -> quotewise R st st' -> quotewise R' st st'.
Proof.
  intro H. unfold quotewise. apply Forall2_weaken. intros e e' [K F]. split; [exact K |].
  exact (Forall2_weaken R R' _ _ H F).
Qed.

(** ** The server, for draws that satisfy [drawn] *)

Section Runs.

Variable env : Env.
Variable drawn : Q -> Prop.
Hypothesis draws : forall k, drawn (random env k).

Lemma tick_quote_store (q : Quote.t) (h : Heap) : store (snd (tick_quote env q h)) = store h.
Proof. reflexivity. Qed.

Lemma new_quote_store (ticker : string) (h : Heap) : store (snd (new_quote env ticker h)) = store h.
Proof. reflexivity. Qed.

Lemma tick_accountData (h : Heap) :
  accountData (store (snd (tick env h))) =
  fst (mapM (tick_account env) (accountData (store h)) h).
Proof.
  unfold tick. destruct (mapM (tick_account env) (accountData (store h)) h) as [d h'].
  reflexivity.
Qed.

(** One firing of the timer relates every quote to its successor. *)
Lemma tick_quotewise (P : Quote.t -> Prop) (R : Quote.t -> Quote.t -> Prop) (h : Heap) :
  (forall r t q, drawn r -> P q -> R q (perturb r t q)) ->
  all_quotes P (store h) ->
  quotewise R (store h) (store (snd (tick env h))).
Proof.
  intros Hstep Hall. unfold quotewise. rewrite tick_accountData.
  apply mapM_Forall2 with (P := fun e => Forall P (AccountData.stocks (snd e))); [| exact Hall].
  intros [k d] h1 Hd. unfold tick_account, bind. cbn [fst snd].
  pose proof (mapM_Forall2 (tick_quote env) P R) as M.
  specialize (M (fun q h2 Pq => Hstep _ _ q (draws (randoms h2)) Pq)
                (AccountData.stocks d) h1 Hd).
  destruct (mapM (tick_quote env) (AccountData.stocks d) h1) as [qs h2].
  cbn. split; [reflexivity | exact M].
Qed.

Lemma tick_all_quotes (P P' : Quote.t -> Prop) (h : Heap) :
  (forall r t q, drawn r -> P q -> P' (perturb r t q)) ->
  all_quotes P (store h) -> all_quotes P' (store (snd (tick env h))).
Proof.
  intros Hstep Hall. apply quotewise_right with (st := store h).
  now apply tick_quotewise with (P := P).
Qed.

(** The seeding gives every quote a price drawn by [randomPrice(100)] and
    a zero change. *)
Lemma boot_all_quotes (P : Quote.t -> Prop) :
  (forall r t ticker, drawn r ->
     P {| Quote.ticker := ticker; Quote.price := toFixed2 (100 + r * 100);
          Quote.change := 0; Quote.updatedAt := t |}) ->
  all_quotes P (store (boot env)).
Proof.
  intro Hnew. unfold boot, initAccountData.
  apply forEach_invariant with (I := fun h => all_quotes P (store h)); [| constructor].
  intros acc h Hh. unfold init_account, bind.
  pose proof (mapM_Forall2 (new_quote env) (fun _ => True) (fun _ q => P q)) as M.
  specialize (M (fun ticker h1 _ => Hnew _ _ ticker (draws (randoms h1)))
                (Account.stocks acc) h).
  pose proof (mapM_store (new_quote env) new_quote_store (Account.stocks acc) h) as S.
  destruct (mapM (new_quote env) (Account.stocks acc) h) as [data h1].
  cbn in *. unfold all_quotes in *. cbn. rewrite S.
  apply set_Forall; [exact Hh |]. cbn. apply Forall2_right with (l := Account.stocks acc).
  apply M. clear. induction (Account.stocks acc); constructor; auto.
Qed.

End Runs.

Lemma all_quotes_trivial (st : Store) : all_quotes (fun _ => True) st.
Proof.
  unfold all_quotes. induction (accountData st) as [| e l IH]; constructor; [| exact IH].
  induction (AccountData.stocks (snd e)); constructor; auto.
Qed.

Lemma all_quotes_own (P : Quote.t -> Prop) (st : Store) (k : string) (d : AccountData.t) :
  all_quotes P st -> JSObject.own (accountData st) k = Some d ->
  Forall P (AccountData.stocks d).
Proof.
  unfold all_quotes. induction 1 as [| [k' d'] l Hd _ IH]; cbn; [discriminate |].
  destruct (String.eqb k' k); [| exact IH]. intro E. injection E as <-. exact Hd.
Qed.

(** Every quote of a running server is worth at least half a unit. *)
Lemma price_at_least_half (env : Env) (n : nat) :
  (forall k, 0 <= random env k /\ random env k < 1) ->
  all_quotes (fun q => 1 # 2 <= Quote.price q) (store (after_ticks env n)).
Proof.
  intro Hr. induction n as [| n IH]; cbn [after_ticks].
  - apply boot_all_quotes with (drawn := fun r => 0 <= r /\ r < 1); [exact Hr |].
    intros r t ticker [R0 R1]. cbn. destruct (seed_range r R0 R1) as [L _]. lra.
  - apply tick_all_quotes with (drawn := fun r => 0 <= r /\ r < 1) (P := fun q => 1 # 2 <= Quote.price q);
      [exact Hr | | exact IH].
    intros r t q [R0 R1] Pq. now apply perturb_walk.
Qed.

(** ** The claims about the prices *)


Lemma steady_draws : forall k, 0 <= random steady k /\ random steady k < 1.
Proof. intro k. split; [discriminate | reflexivity]. Defined.


(** C2.  A firing of the timer sets the change of every quote to the
    rounding to two decimals of the new price minus the price before, and
    at initialization the change of every quote is 0. *)
Theorem change_is_rounded_difference (env : Env) (h : Heap) :
  quotewise (fun q q' => Quote.change q' = toFixed2 (Quote.price q' - Quote.price q))
            (store h) (store (snd (tick env h))) /\
  all_quotes (fun q => Quote.change q = 0) (store (boot env)).
Proof.
  split.
  - apply tick_quotewise with (drawn := fun _ => True) (P := fun _ => True).
    + intro k. exact I.
    + intros r t q _ _. apply perturb_change.
    + apply all_quotes_trivial.
  - apply boot_all_quotes with (drawn := fun _ => True).
    + intro k. exact I.
    + intros r t ticker _. reflexivity.
Qed.

(** C5, as the spec has it, fails: with a draw of 0.99999 the seed price is
    199.999 rounded to two decimals, that is 200, outside [100, 200). *)
Lemma seed_price_reaches_200 :
  ~ all_quotes (fun q => 100 <= Quote.price q /\ Quote.price q < 200) (store (boot high_draws)).
Proof.
  intro H.
  destruct (JSObject.own (accountData (store (boot high_draws))) "a1") as [d |] eqn:E;
    [| vm_compute in E; discriminate].
  pose proof (all_quotes_own _ _ _ _ H E) as F.
  vm_compute in E. injection E as <-.
  inversion F as [| q l [_ Hlt] _]. vm_compute in Hlt. discriminate.
Qed.

(** C5, amended.  After the seeding with base 100 every price lies in the
    closed interval [100, 200] and has at most two decimals. *)
Theorem seed_price_range (env : Env) :
  (forall k, 0 <= random env k /\ random env k < 1) ->
  all_quotes (fun q => 100 <= Quote.price q /\ Quote.price q <= 200 /\ two_decimals (Quote.price q))
             (store (boot env)).
Proof.
  intro Hr. apply boot_all_quotes with (drawn := fun r => 0 <= r /\ r < 1); [exact Hr |].
  intros r t ticker [R0 R1]. cbn. now apply seed_range.
Qed.

Lemma seed_price_range_witness :
  (forall k, 0 <= random steady k /\ random steady k < 1) /\
  all_quotes (fun q => 100 <= Quote.price q /\ Quote.price q <= 200 /\ two_decimals (Quote.price q))
             (store (boot steady)).
Proof.
  split; [exact steady_draws | apply (seed_price_range steady); exact steady_draws].
Defined.



Lemma negative_base_price (r base : Q) : 0 <= r -> base <= 0 -> toFixed2 (base + r * base) <= 0.
Proof.
  intros R0 B. apply toFixed2_nonpos.
  pose proof (Qmult_le_compat_r base 0 r B R0) as M.
  rewrite Qmult_0_l in M. rewrite (Qmult_comm base r) in M. lra.
Qed.

(** C8, as the spec has it, fails: [randomPrice(-100)] with a draw of 0.5
    returns, and the price is negative. *)
Lemma negative_base_is_not_rejected :
  fst (randomPrice steady (- (100)) heap0) == - (150) /\
  fst (randomPrice steady (- (100)) heap0) < 0.
Proof. split; reflexivity. Qed.

(** C8, amended.  [randomPrice] checks nothing: for a base of zero or less
    it returns a price, and that price is zero or less. *)
Theorem randomPrice_takes_any_base (env : Env) (base : Q) (h : Heap) :
  base <= 0 -> 0 <= random env (randoms h) ->
  exists p h', randomPrice env base h = (p, h') /\ p <= 0.
Proof.
  intros B R0. eexists. eexists. split; [reflexivity |].
  now apply negative_base_price.
Qed.

Lemma randomPrice_takes_any_base_witness :
  - (100) <= 0 /\ 0 <= random steady (randoms heap0) /\
  exists p h', randomPrice steady (- (100)) heap0 = (p, h') /\ p <= 0.
Proof.
  split; [discriminate |]. split; [discriminate |].
  apply (randomPrice_takes_any_base steady (- (100)) heap0); discriminate.
Defined.

(** ** The claims about the order of the quotes *)

Lemma quotewise_tickers (st st' : Store) :
  quotewise (fun q q' => Quote.ticker q' = Quote.ticker q) st st' ->
  tickers (accountData st') = tickers (accountData st).
Proof.
  unfold quotewise, tickers. induction 1 as [| e e' l l' [K F] _ IH]; cbn; [reflexivity |].
  rewrite IH, K. do 2 f_equal. clear - F. induction F as [| q q' s s' T _ IHF]; cbn; congruence.
Qed.

Lemma own_tickers (o : JSObject.t AccountData.t) (k : string) :
  JSObject.own (tickers o) k =
  option_map (fun d => map Quote.ticker (AccountData.stocks d)) (JSObject.own o k).
Proof.
  induction o as [| [k' d] o IH]; cbn; [reflexivity |].
  destruct (String.eqb k' k); [reflexivity | exact IH].
Qed.

Lemma tick_keeps_tickers (env : Env) (h : Heap) :
  quotewise (fun q q' => Quote.ticker q' = Quote.ticker q) (store h) (store (snd (tick env h))).
Proof.
  apply tick_quotewise with (drawn := fun _ => True) (P := fun _ => True).
  - intro k. exact I.
  - intros r t q _ _. apply perturb_ticker.
  - apply all_quotes_trivial.
Qed.

Lemma boot_tickers (env : Env) :
  tickers (accountData (store (boot env))) =
  map (fun acc => (Account.id acc, Account.stocks acc))
      (List.concat (JSObject.values (accounts store0))).
Proof. reflexivity. Qed.

Lemma running_tickers (env : Env) (n : nat) :
  tickers (accountData (store (after_ticks env n))) = tickers (accountData (store (boot env))).
Proof.
  induction n as [| n IH]; [reflexivity |]. cbn [after_ticks].
  rewrite <- IH. apply quotewise_tickers, tick_keeps_tickers.
Qed.

(** C7.  For each of the accounts, at initialization and after any number
    of firings of the timer, [getAccountQuotes] returns one quote per
    ticker of the account, in the order of its ticker list; the firing of
    the timer keeps the accounts, the number of quotes and every ticker. *)
Theorem quotes_follow_subscriptions (env : Env) (n : nat) :
  Forall (fun acc =>
            exists d,
              getAccountQuotes (Some (Account.id acc)) (store (after_ticks env n)) = Data d /\
              map Quote.ticker (AccountData.stocks d) = Account.stocks acc)
         (List.concat (JSObject.values (accounts store0))) /\
  tickers (accountData (store (after_ticks env n))) = tickers (accountData (store (boot env))) /\
  forall h, quotewise (fun q q' => Quote.ticker q' = Quote.ticker q)
                      (store h) (store (snd (tick env h))).
Proof.
  split; [| split; [apply running_tickers | apply tick_keeps_tickers]].
  pose proof (running_tickers env n) as T. rewrite boot_tickers in T.
  assert (forall k ts,
             JSObject.own (tickers (accountData (store (after_ticks env n)))) k = Some ts ->
             exists d, getAccountQuotes (Some k) (store (after_ticks env n)) = Data d /\
                       map Quote.ticker (AccountData.stocks d) = ts) as G.
  { intros k ts. rewrite own_tickers. unfold getAccountQuotes, JSObject.get. cbn [property_key].
    destruct (JSObject.own (accountData (store (after_ticks env n))) k) as [d |]; cbn; [| discriminate].
    intro E. injection E as <-. now exists d. }
  rewrite T in G. cbn.
  repeat constructor; apply G; reflexivity.
Qed.

(** ** The claims about the router *)

Example pathname_plain : URL.pathname "/accounts/a1/data" = URL.Pathname "/accounts/a1/data".
Proof. vm_compute. reflexivity. Qed.

Example pathname_dots_and_query :
  URL.pathname "/x/../companies/./c1/accounts?full=1#top" = URL.Pathname "/companies/c1/accounts".
Proof. vm_compute. reflexivity. Qed.

Example pathname_relative : URL.pathname "companies" = URL.Pathname "/companies".
Proof. vm_compute. reflexivity. Qed.

Example pathname_no_host : URL.pathname "//?x" = URL.TypeError.
Proof. vm_compute. reflexivity. Qed.

Example parts_drop_empty_segments :
  parts_of "/companies//c1/accounts/" = ["companies"; "c1"; "accounts"].
Proof. vm_compute. reflexivity. Qed.

Example known_company :
  callApi "/companies/c2/accounts" store0 =
  Returned (Accounts
    [ {| Account.id := "b1"; Account.name := "Fathima - Account 1";
         Account.stocks := ["TSLA"; "NVDA"] |};
      {| Account.id := "b2"; Account.name := "Fathima - Account 2";
         Account.stocks := ["GOOG"; "AMZN"; "META"] |} ]).
Proof. vm_compute. reflexivity. Qed.

Example unknown_company : callApi "/companies/c9/accounts" store0 = Returned (Accounts []).
Proof. vm_compute. reflexivity. Qed.

Lemma route_status (parts : list string) :
  route parts = (if served parts then route parts else not_found) /\
  status (route parts) = (if served parts then 200 else 404)%Z.
Proof.
  unfold route, served.
  destruct parts as [| a rest]; [split; reflexivity |].
  destruct rest as [| b [| c rest]]; cbn;
    destruct (String.eqb a "companies") eqn:E1; destruct (String.eqb a "accounts") eqn:E2;
    try (apply String.eqb_eq in E1; apply String.eqb_eq in E2; congruence);
    cbn; try (split; reflexivity);
    try (destruct (String.eqb c "accounts")); try (destruct (String.eqb c "data"));
    cbn; split; reflexivity.
Qed.


(** C3.  The lookups answer an id that names a member of
    [Object.prototype] with that member, not with an empty sequence. *)
Theorem unknown_id_reaches_prototype :
  callApi "/companies/constructor/accounts" (store (boot steady)) = Returned (Builtin "constructor") /\
  callApi "/accounts/toString/data" (store (boot steady)) = Returned (Builtin "toString").
Proof. split; vm_compute; reflexivity. Qed.

(** An id that is neither an own key nor a member of [Object.prototype]
    gets the empty answer. *)
Lemma unknown_ids_give_empty (id : string) (st : Store) :
  JSObject.inherited id = false ->
  (JSObject.own (accounts st) id = None -> listAccounts (Some id) st = Accounts []) /\
  (JSObject.own (accountData st) id = None ->
   getAccountQuotes (Some id) st = Data {| AccountData.stocks := [] |}).
Proof.
  intro N. unfold listAccounts, getAccountQuotes, JSObject.get. cbn [property_key].
  split; intros ->; now rewrite N.
Qed.

(** C4.  A path with a segment behind [/companies/c1/accounts] has none of
    the three shapes, and [apiFetch] answers it with status 200 and the
    accounts of [c1], not with 404. *)
Theorem longer_path_is_served :
  matches_pattern "/companies/c1/accounts/extra" = false /\
  (exists res, apiFetch "/companies/c1/accounts/extra" = Returned res /\ status res = 200%Z) /\
  apiFetch "/companies/c1/accounts/extra" = apiFetch "/companies/c1/accounts".
Proof.
  split; [vm_compute; reflexivity |]. split; [| vm_compute; reflexivity].
  exists (route ["companies"; "c1"; "accounts"; "extra"]).
  split; vm_compute; reflexivity.
Qed.

(** A path whose non-empty segments are not [companies] alone and do not
    start with [companies], an id, [accounts] or with [accounts], an id,
    [data] is answered with status 404 and the body
    [{ error: "not found" }]. *)
Lemma unserved_paths_not_found (path p : string) :
  URL.pathname path = URL.Pathname p -> served (parts_of p) = false ->
  exists res, apiFetch path = Returned res /\ status res = 404%Z /\
              forall st, json res st = ErrorBody "not found".
Proof.
  intros Hp Hs. unfold apiFetch. rewrite Hp.
  destruct (route_status (parts_of p)) as [R _]. rewrite Hs in R.
  exists not_found. rewrite R. repeat split.
Qed.

Example unknown_path_not_found :
  URL.pathname "/unknown/path" = URL.Pathname "/unknown/path" /\
  served (parts_of "/unknown/path") = false /\
  exists res, apiFetch "/unknown/path" = Returned res /\ status res = 404%Z /\
              forall st, json res st = ErrorBody "not found".
Proof.
  split; [vm_compute; reflexivity |]. split; [vm_compute; reflexivity |].
  apply (unserved_paths_not_found "/unknown/path" "/unknown/path"); vm_compute; reflexivity.
Defined.



(** ** The draws of one firing of the timer *)

Section Draws.

Variable env : Env.

Lemma walk_app (r c : nat) (l1 l2 : list Quote.t) :
  walk env r c (l1 ++ l2)%list = (walk env r c l1 ++ walk env (r + List.length l1) (c + List.length l1) l2)%list.
Proof.
  revert r c. induction l1 as [| q l1 IH]; intros r c; cbn.
  - now rewrite !Nat.add_0_r.
  - rewrite IH. now rewrite <- !Nat.add_succ_comm.
Qed.


Lemma walk_length (l : list Quote.t) (r c : nat) : List.length (walk env r c l) = List.length l.
Proof. revert r c. induction l as [| q l IH]; intros r c; cbn; congruence. Qed.

Lemma advance_advance (j k : nat) (h : Heap) : advance k (advance j h) = advance (j + k) h.
Proof. unfold advance. cbn. now rewrite !Nat.add_assoc. Qed.

Lemma mapM_tick_quote (l : list Quote.t) (h : Heap) :
  mapM (tick_quote env) l h = (walk env (randoms h) (clocks h) l, advance (List.length l) h).
Proof.
  revert h. induction l as [| q l IH]; intro h; cbn.
  - unfold ret, advance. destruct h. cbn. now rewrite !Nat.add_0_r.
  - unfold bind at 1. unfold tick_quote at 1. unfold bind, Math_random, Date_now, ret. cbn.
    rewrite IH. cbn. unfold advance. cbn.
    now rewrite <- !Nat.add_succ_comm.
Qed.

Lemma tick_account_walk (k : string) (d : AccountData.t) (h : Heap) :
  tick_account env (k, d) h =
  ((k, {| AccountData.stocks := walk env (randoms h) (clocks h) (AccountData.stocks d) |}),
   advance (List.length (AccountData.stocks d)) h).
Proof. unfold tick_account, bind. cbn [fst snd]. now rewrite mapM_tick_quote. Qed.

Lemma mapM_tick_account (o : JSObject.t AccountData.t) (h : Heap) :
  let total := List.length (List.concat (map (fun e => AccountData.stocks (snd e)) o)) in
  List.concat (map (fun e => AccountData.stocks (snd e)) (fst (mapM (tick_account env) o h))) =
  walk env (randoms h) (clocks h) (List.concat (map (fun e => AccountData.stocks (snd e)) o)) /\
  snd (mapM (tick_account env) o h) = advance total h.
Proof.
  revert h. induction o as [| [k d] o IH]; intro h; cbn [mapM map List.concat].
  - split; [reflexivity |]. unfold ret, advance. destruct h. cbn. now rewrite !Nat.add_0_r.
  - unfold bind. rewrite tick_account_walk.
    destruct (IH (advance (List.length (AccountData.stocks d)) h)) as [F S].
    destruct (mapM (tick_account env) o (advance (List.length (AccountData.stocks d)) h))
      as [es h2].
    cbn [fst snd] in *. subst h2. unfold ret. cbn [fst snd map List.concat AccountData.stocks].
    rewrite F. split.
    + now rewrite walk_app.
    + rewrite advance_advance. now rewrite length_app.
Qed.

End Draws.


(** ** The directory of companies and accounts *)

Lemma tick_directory (env : Env) (h : Heap) :
  companies (store (snd (tick env h))) = companies (store h) /\
  accounts (store (snd (tick env h))) = accounts (store h).
Proof.
  unfold tick.
  assert (forall e h1, store (snd (tick_account env e h1)) = store h1) as T.
  { intros e h1. unfold tick_account, bind.
    pose proof (mapM_store (tick_quote env) (tick_quote_store env) (AccountData.stocks (snd e)) h1) as Q.
    destruct (mapM (tick_quote env) (AccountData.stocks (snd e)) h1). exact Q. }
  pose proof (mapM_store (tick_account env) T (accountData (store h)) h) as M.
  destruct (mapM (tick_account env) (accountData (store h)) h) as [data h1].
  cbn in *. now rewrite M.
Qed.

Lemma init_account_directory (env : Env) (acc : Account.t) (h : Heap) :
  companies (store (snd (init_account env acc h))) = companies (store h) /\
  accounts (store (snd (init_account env acc h))) = accounts (store h).
Proof.
  unfold init_account, bind.
  pose proof (mapM_store (new_quote env) (new_quote_store env) (Account.stocks acc) h) as M.
  destruct (mapM (new_quote env) (Account.stocks acc) h) as [data h1].
  cbn in *. now rewrite M.
Qed.

Lemma initAccountData_directory (env : Env) (h : Heap) :
  companies (store (snd (initAccountData env h))) = companies (store h) /\
  accounts (store (snd (initAccountData env h))) = accounts (store h).
Proof.
  unfold initAccountData.
  apply forEach_invariant
    with (I := fun h' => companies (store h') = companies (store h) /\
                         accounts (store h') = accounts (store h)); [| split; reflexivity].
  intros acc h1 [C A]. destruct (init_account_directory env acc h1) as [C1 A1].
  split; congruence.
Qed.

(** X2.  Neither the seeding nor the timer touches the companies and the
    accounts of the store: at any time [/companies] and
    [/companies/{id}/accounts] answer as they do on the store as written in
    the source, whatever the draws. *)
Theorem directory_is_static (env : Env) (n : nat) :
  companies (store (after_ticks env n)) = companies store0 /\
  accounts (store (after_ticks env n)) = accounts store0 /\
  listCompanies (store (after_ticks env n)) = listCompanies store0 /\
  forall companyId,
    listAccounts companyId (store (after_ticks env n)) = listAccounts companyId store0.
Proof.
  assert (companies (store (after_ticks env n)) = companies store0 /\
          accounts (store (after_ticks env n)) = accounts store0) as [C A].
  { induction n as [| n [C A]]; cbn [after_ticks].
    - exact (initAccountData_directory env heap0).
    - destruct (tick_directory env (after_ticks env n)) as [C1 A1]. split; congruence. }
  repeat split; try assumption.
  - unfold listCompanies. now rewrite C.
  - intro companyId. unfold listAccounts. now rewrite A.
Qed.

(** ** [callApi] on top of [apiFetch] *)




(** ** The draws of the seeding *)

Section Seeding.

Variable env : Env.

Lemma seed_app (r c : nat) (l1 l2 : list string) :
  seed env r c (l1 ++ l2)%list =
  (seed env r c l1 ++ seed env (r + List.length l1) (c + List.length l1) l2)%list.
Proof.
  revert r c. induction l1 as [| t l1 IH]; intros r c; cbn.
  - now rewrite !Nat.add_0_r.
  - rewrite IH. now rewrite <- !Nat.add_succ_comm.
Qed.


Lemma mapM_new_quote (l : list string) (h : Heap) :
  mapM (new_quote env) l h = (seed env (randoms h) (clocks h) l, advance (List.length l) h).
Proof.
  revert h. induction l as [| t l IH]; intro h; cbn.
  - unfold ret, advance. destruct h. cbn. now rewrite !Nat.add_0_r.
  - unfold bind at 1. unfold new_quote at 1. unfold randomPrice, bind, Math_random, Date_now, ret.
    cbn. rewrite IH. cbn. unfold advance. cbn. now rewrite <- !Nat.add_succ_comm.
Qed.

Lemma set_fresh {A} (o : JSObject.t A) (k : string) (v : A) :
  JSObject.own o k = None -> JSObject.set o k v = (o ++ [(k, v)])%list.
Proof.
  induction o as [| [k' v'] o IH]; cbn; [reflexivity |].
  destruct (String.eqb k' k); [discriminate |]. intro H. now rewrite IH.
Qed.

Lemma own_app_fresh {A} (o : JSObject.t A) (k k' : string) (v : A) :
  k <> k' -> JSObject.own o k' = None -> JSObject.own (o ++ [(k, v)])%list k' = None.
Proof.
  intros N. induction o as [| [k0 v0] o IH]; cbn.
  - intros _. destruct (String.eqb k k') eqn:E; [apply String.eqb_eq in E; contradiction | reflexivity].
  - destruct (String.eqb k0 k'); [discriminate | exact IH].
Qed.

Lemma init_account_fresh (acc : Account.t) (h : Heap) :
  JSObject.own (accountData (store h)) (Account.id acc) = None ->
  init_account env acc h =
  (tt, {| store := {| companies := companies (store h); accounts := accounts (store h);
                      accountData := (accountData (store h) ++
                        [(Account.id acc,
                          {| AccountData.stocks :=
                               seed env (randoms h) (clocks h) (Account.stocks acc) |})])%list |};
          randoms := randoms h + List.length (Account.stocks acc);
          clocks := clocks h + List.length (Account.stocks acc) |}).
Proof.
  intro F. unfold init_account, bind. rewrite mapM_new_quote.
  unfold with_accountData, advance. cbn. now rewrite set_fresh.
Qed.

Lemma forEach_init_account (accs : list Account.t) (h : Heap) :
  NoDup (map Account.id accs) ->
  (forall acc, In acc accs -> JSObject.own (accountData (store h)) (Account.id acc) = None) ->
  let total := List.length (List.concat (map Account.stocks accs)) in
  snd (forEach (init_account env) accs h) =
  {| store := {| companies := companies (store h); accounts := accounts (store h);
                 accountData := (accountData (store h) ++
                                 entries env (randoms h) (clocks h) accs)%list |};
     randoms := randoms h + total; clocks := clocks h + total |}.
Proof.
  revert h. induction accs as [| acc accs IH]; intros h ND F; cbn.
  - destruct h as [[cs as' ad] r c]. cbn. now rewrite app_nil_r, !Nat.add_0_r.
  - unfold bind. rewrite init_account_fresh by (apply F; now left).
    inversion ND as [| ? ? NI ND']; subst.
    rewrite IH; [| exact ND' |].
    + cbn. rewrite <- app_assoc. cbn. now rewrite length_app, !Nat.add_assoc.
    + intros a Ha. cbn. apply own_app_fresh; [| apply F; now right].
      intro E. apply NI. rewrite E. now apply in_map.
Qed.

Lemma entries_flat (r c : nat) (accs : list Account.t) :
  List.concat (map (fun e => AccountData.stocks (snd e)) (entries env r c accs)) =
  seed env r c (List.concat (map Account.stocks accs)).
Proof.
  revert r c. induction accs as [| acc accs IH]; intros r c; cbn; [reflexivity |].
  now rewrite IH, seed_app.
Qed.



End Seeding.


Lemma directory_ids_distinct :
  accountData (store heap0) = [] /\
  NoDup (map Account.id (all_accounts (store heap0))) /\
  ~ In "__proto__" (map Account.id (all_accounts (store heap0))).
Proof.
  split; [reflexivity |]. split.
  - cbn. repeat constructor; cbn; intuition discriminate.
  - cbn. intuition discriminate.
Defined.


(** ** The time stamps *)

Section Stamps.

Variable env : Env.

Lemma tick_flat (h : Heap) :
  flat_quotes (store (snd (tick env h))) =
    walk env (randoms h) (clocks h) (flat_quotes (store h)) /\
  clocks (snd (tick env h)) = (clocks h + List.length (flat_quotes (store h)))%nat.
Proof.
  unfold tick, flat_quotes.
  destruct (mapM_tick_account env (accountData (store h)) h) as [F S].
  destruct (mapM (tick_account env) (accountData (store h)) h) as [data h2].
  cbn in *. subst h2. now rewrite F.
Qed.

Lemma boot_flat :
  flat_quotes (store (boot env)) =
    seed env 0 0 (List.concat (map Account.stocks (all_accounts store0))) /\
  clocks (boot env) = List.length (List.concat (map Account.stocks (all_accounts store0))).
Proof.
  destruct directory_ids_distinct as [E [ND _]].
  unfold boot, initAccountData. fold (all_accounts (store heap0)).
  rewrite forEach_init_account; [| exact ND | intros acc _; now rewrite E].
  unfold flat_quotes. cbn [store accountData clocks]. rewrite E. cbn [app].
  rewrite entries_flat. split; reflexivity.
Qed.

Lemma seed_stamped (r c : nat) (l : list string) :
  Forall (stamped env (c + List.length l)) (seed env r c l).
Proof.
  revert r c. induction l as [| t l IH]; intros r c; cbn; constructor.
  - exists c. split; [lia | reflexivity].
  - specialize (IH (S r) (S c)). rewrite Nat.add_succ_comm in IH. exact IH.
Qed.

Lemma walk_stamped (r c : nat) (l : list Quote.t) :
  Forall (stamped env (c + List.length l)) (walk env r c l).
Proof.
  revert r c. induction l as [| q l IH]; intros r c; cbn; constructor.
  - exists c. split; [lia | reflexivity].
  - specialize (IH (S r) (S c)). rewrite Nat.add_succ_comm in IH. exact IH.
Qed.

Lemma running_stamped (n : nat) :
  Forall (stamped env (clocks (after_ticks env n))) (flat_quotes (store (after_ticks env n))).
Proof.
  destruct n as [| n]; cbn [after_ticks].
  - destruct boot_flat as [F C]. rewrite F, C. apply (seed_stamped 0 0).
  - destruct (tick_flat (after_ticks env n)) as [F C]. rewrite F, C. apply walk_stamped.
Qed.

Lemma walk_later (r c : nat) (l : list Quote.t) :
  (forall i j, (i <= j)%nat -> (now env i <= now env j)%Z) ->
  Forall (stamped env c) l ->
  Forall2 (fun q q' => (Quote.updatedAt q <= Quote.updatedAt q')%Z) l (walk env r c l).
Proof.
  intros Mono. revert r c. induction l as [| q l IH]; intros r c St; cbn; constructor.
  - inversion St as [| ? ? [j [Hj E]] _]; subst. cbn. rewrite E. apply Mono. lia.
  - apply IH. inversion St as [| ? ? _ St']; subst.
    clear - St'. induction St' as [| q' l' [j [Hj E]] _ IH']; constructor; [| exact IH'].
    exists j. split; [lia | exact E].
Qed.

End Stamps.

(** X5.  As long as [Date.now()] does not go back, no firing of the timer
    moves the [updatedAt] of a quote back. *)
Theorem updatedAt_never_goes_back (env : Env) (n : nat) :
  (forall i j, (i <= j)%nat -> (now env i <= now env j)%Z) ->
  Forall2 (fun q q' => (Quote.updatedAt q <= Quote.updatedAt q')%Z)
          (flat_quotes (store (after_ticks env n)))
          (flat_quotes (store (after_ticks env (S n)))).
Proof.
  intro Mono. cbn [after_ticks].
  destruct (tick_flat env (after_ticks env n)) as [F _]. rewrite F.
  apply walk_later; [exact Mono |]. apply running_stamped.
Qed.

Lemma steady_clock : forall i j, (i <= j)%nat -> (now steady i <= now steady j)%Z.
Proof. intros i j L. unfold steady. cbn [now]. lia. Defined.

Lemma updatedAt_never_goes_back_witness :
  (forall i j, (i <= j)%nat -> (now steady i <= now steady j)%Z) /\
  Forall2 (fun q q' => (Quote.updatedAt q <= Quote.updatedAt q')%Z)
          (flat_quotes (store (after_ticks steady 1)))
          (flat_quotes (store (after_ticks steady 2))).
Proof.
  split; [exact steady_clock | exact (updatedAt_never_goes_back steady 1 steady_clock)].
Defined.

(** ** Paths made of plain segments *)

Lemma alphanumeric_char (c : ascii) :
  URL.is_alpha c || URL.is_digit c = true ->
  URL.is_slash c = false /\ URL.ends_path c = false /\
  URL.in_path_percent_encode_set c = false /\ URL.is_c0_or_space c = false /\
  URL.is_tab_or_newline c = false /\
  Ascii.eqb (URL.lower c) "." = false /\ Ascii.eqb (URL.lower c) "%" = false /\
  Ascii.eqb c "/" = false.
Proof.
  destruct c as [b0 b1 b2 b3 b4 b5 b6 b7].
  destruct b0, b1, b2, b3, b4, b5, b6, b7; vm_compute; intro H;
    try discriminate H; repeat split; reflexivity.
Qed.

Lemma list_ascii_app (a b : string) :
  list_ascii_of_string (a ++ b) = (list_ascii_of_string a ++ list_ascii_of_string b)%list.
Proof. induction a as [| c a IH]; cbn; [reflexivity | now rewrite IH]. Qed.

Lemma append_empty_r (s : string) : (s ++ EmptyString)%string = s.
Proof. induction s as [| c s IH]; cbn; [reflexivity | now rewrite IH]. Qed.

Lemma split_slash_free (s rest : string) :
  slash_free s = true ->
  split "/" (s ++ rest) =
  match split "/" rest with
  | piece :: pieces => (s ++ piece) :: pieces
  | [] => []
  end.
Proof.
  unfold slash_free. induction s as [| c s IH]; cbn.
  - intros _. destruct (split "/" rest); reflexivity.
  - destruct (Ascii.eqb c "/") eqn:E; cbn; [discriminate |]. intro H.
    rewrite (IH H). destruct (split "/" rest); reflexivity.
Qed.

Lemma split_path_of (segs : list string) :
  Forall (fun s => slash_free s = true) segs ->
  split "/" (path_of segs) =
  match segs with
  | [] => [EmptyString]
  | _ => EmptyString :: segs
  end.
Proof.
  induction 1 as [| s segs Hs Hsegs IH]; [reflexivity |].
  cbn [path_of split]. rewrite (split_slash_free s (path_of segs) Hs), IH.
  change (Ascii.eqb "/" "/") with true. cbn iota.
  destruct segs; cbn; now rewrite append_empty_r.
Qed.

Lemma split_pieces (p : string) : Forall (fun s => slash_free s = true) (split "/" p).
Proof.
  induction p as [| c p IH]; cbn; [repeat constructor |].
  destruct (split "/" p) as [| piece pieces]; [constructor |].
  inversion IH as [| ? ? Hp Hps]; subst.
  destruct (Ascii.eqb c "/") eqn:E.
  - constructor; [reflexivity | constructor; assumption].
  - constructor; [| assumption]. unfold slash_free in *. cbn. now rewrite E.
Qed.

(** X6.  The parts of a pathname are never empty and never hold a slash,
    whatever the pathname: empty segments, such as those of a doubled or a
    trailing slash, are dropped. *)
Theorem parts_are_plain_segments (pathname : string) :
  Forall (fun s => s <> EmptyString /\ slash_free s = true) (parts_of pathname).
Proof.
  unfold parts_of, filter_Boolean. apply Forall_forall. intros s Hs.
  apply filter_In in Hs. destruct Hs as [Hin Hne]. split.
  - intro E. subst s. discriminate Hne.
  - pose proof (split_pieces pathname) as P. rewrite Forall_forall in P. now apply P.
Qed.

Lemma parts_of_written_path_plain (segs : list string) :
  Forall (fun s => s <> EmptyString /\ slash_free s = true) segs ->
  parts_of (path_of segs) = segs.
Proof.
  intro H. unfold parts_of.
  rewrite split_path_of by (eapply Forall_impl; [| exact H]; now intros s [_ Hs]).
  assert (filter_Boolean segs = segs) as F.
  { unfold filter_Boolean. induction H as [| s segs [Hne _] _ IH]; cbn; [reflexivity |].
    destruct (String.eqb s EmptyString) eqn:E; [apply String.eqb_eq in E; contradiction |].
    cbn. now rewrite IH. }
  destruct segs; [reflexivity |]. cbn [filter_Boolean filter String.eqb negb]. exact F.
Qed.

(** X7.  Splitting is the inverse of writing a path: the parts of the path
    [/s1/s2/...] written from non-empty segments without a slash are these
    segments. *)
Theorem parts_of_written_path (segs : list string) :
  Forall (fun s => s <> EmptyString /\ slash_free s = true) segs ->
  parts_of (path_of segs) = segs.
Proof.
  intro H. rewrite <- (parts_of_written_path_plain segs H) at 2. reflexivity.
Qed.

Lemma parts_of_written_path_witness :
  Forall (fun s => s <> EmptyString /\ slash_free s = true) ["accounts"; "a1"; "data"] /\
  parts_of (path_of ["accounts"; "a1"; "data"]) = ["accounts"; "a1"; "data"].
Proof.
  assert (Forall (fun s => s <> EmptyString /\ slash_free s = true) ["accounts"; "a1"; "data"]) as H
    by (repeat constructor; discriminate).
  split; [exact H | exact (parts_of_written_path _ H)].
Defined.

Lemma alphanumeric_slash_free (s : string) : alphanumeric s = true -> slash_free s = true.
Proof.
  unfold alphanumeric, slash_free. induction (list_ascii_of_string s) as [| c l IH]; cbn;
    [reflexivity |].
  intro H. apply andb_prop in H. destruct H as [Hc Hl].
  destruct (alphanumeric_char c Hc) as (_ & _ & _ & _ & _ & _ & _ & E).
  rewrite E. cbn. now apply IH.
Qed.

Lemma preprocess_quiet (l : list ascii) :
  Forall (fun c => URL.is_c0_or_space c = false /\ URL.is_tab_or_newline c = false) l ->
  URL.preprocess l = l.
Proof.
  intro H. unfold URL.preprocess.
  assert (forall l', Forall (fun c => URL.is_c0_or_space c = false /\
                                     URL.is_tab_or_newline c = false) l' ->
                     URL.drop_while URL.is_c0_or_space l' = l') as D.
  { intros l' H'. destruct H' as [| c l' [Hc _] _]; cbn; [reflexivity | now rewrite Hc]. }
  rewrite (D l H). rewrite (D (rev l)) by now apply Forall_rev. rewrite rev_involutive.
  induction H as [| c l [_ Hc] _ IH]; cbn; [reflexivity |]. rewrite Hc. cbn. now rewrite IH.
Qed.

Lemma path_chars_quiet (segs : list string) :
  Forall (fun s => s <> EmptyString /\ alphanumeric s = true) segs ->
  Forall (fun c => URL.is_c0_or_space c = false /\ URL.is_tab_or_newline c = false)
         (list_ascii_of_string (path_of segs)).
Proof.
  induction 1 as [| s segs [_ Hs] _ IH]; cbn; [constructor |].
  constructor; [split; reflexivity |]. rewrite list_ascii_app. apply Forall_app. split; [| exact IH].
  unfold alphanumeric in Hs. clear - Hs.
  induction (list_ascii_of_string s) as [| c l IHl]; constructor.
  - cbn in Hs. apply andb_prop in Hs. destruct Hs as [Hc _].
    destruct (alphanumeric_char c Hc) as (_ & _ & _ & Q1 & Q2 & _). now split.
  - apply IHl. cbn in Hs. apply andb_prop in Hs. tauto.
Qed.

Lemma path_state_segment (seg tail : list ascii) (path : list (list ascii)) (buffer : list ascii) :
  forallb (fun c => URL.is_alpha c || URL.is_digit c) seg = true ->
  URL.path_state (seg ++ tail)%list path buffer = URL.path_state tail path (buffer ++ seg)%list.
Proof.
  revert buffer. induction seg as [| c seg IH]; intros buffer H; cbn.
  - now rewrite app_nil_r.
  - cbn in H. apply andb_prop in H. destruct H as [Hc Hseg].
    destruct (alphanumeric_char c Hc) as (E1 & E2 & E3 & _).
    rewrite E1, E2, E3. rewrite (IH _ Hseg). now rewrite <- app_assoc.
Qed.

Lemma close_plain_segment (seg : list ascii) (path : list (list ascii)) (slash : bool) :
  seg <> [] -> forallb (fun c => URL.is_alpha c || URL.is_digit c) seg = true ->
  URL.close_segment path seg slash = (path ++ [seg])%list.
Proof.
  intros Hne H. destruct seg as [| c seg]; [contradiction |].
  cbn in H. apply andb_prop in H. destruct H as [Hc _].
  destruct (alphanumeric_char c Hc) as (_ & _ & _ & _ & _ & D1 & D2 & _).
  unfold URL.close_segment, URL.is_double_dot, URL.is_single_dot, URL.same_segment.
  cbn. now rewrite D1, D2.
Qed.

Lemma nonempty_chars (s : string) : s <> EmptyString -> list_ascii_of_string s <> [].
Proof. destruct s; [contradiction | discriminate]. Qed.

Lemma path_state_written (s : string) (segs : list string) (path : list (list ascii)) :
  Forall (fun s => s <> EmptyString /\ alphanumeric s = true) (s :: segs) ->
  URL.path_state (list_ascii_of_string (s ++ path_of segs)) path [] =
  (path ++ map list_ascii_of_string (s :: segs))%list.
Proof.
  revert s path. induction segs as [| s' segs IH]; intros s path H;
    inversion H as [| ? ? [Hne Hs] Hrest]; subst; rewrite list_ascii_app;
    rewrite path_state_segment by exact Hs; cbn [app path_of list_ascii_of_string].
  - cbn. apply close_plain_segment; [now apply nonempty_chars | exact Hs].
  - cbn [URL.path_state]. change (URL.is_slash "/") with true. cbn iota.
    rewrite close_plain_segment; [| now apply nonempty_chars | exact Hs].
    rewrite (IH s' _ Hrest). cbn. now rewrite <- app_assoc.
Qed.

Lemma concat_no_separator (l : list string) :
  String.concat EmptyString l = fold_right String.append EmptyString l.
Proof.
  induction l as [| x l IH]; [reflexivity |]. destruct l as [| y l].
  - cbn. now rewrite append_empty_r.
  - change (String.concat EmptyString (x :: y :: l))
      with (x ++ EmptyString ++ String.concat EmptyString (y :: l))%string.
    rewrite IH. reflexivity.
Qed.

Lemma serialize_written (segs : list string) :
  URL.serialize (map list_ascii_of_string segs) = path_of segs.
Proof.
  unfold URL.serialize. rewrite concat_no_separator.
  induction segs as [| s segs IH]; [reflexivity |].
  cbn. now rewrite string_of_list_ascii_of_string, IH.
Qed.

Lemma pathname_written (segs : list string) :
  segs <> [] -> Forall (fun s => s <> EmptyString /\ alphanumeric s = true) segs ->
  URL.pathname (path_of segs) = URL.Pathname (path_of segs).
Proof.
  intros Hne H. destruct segs as [| s segs]; [contradiction |].
  unfold URL.pathname. rewrite preprocess_quiet by now apply path_chars_quiet.
  cbn [path_of list_ascii_of_string]. change (URL.has_scheme ("/"%char :: ?l)) with false.
  cbn iota. change (URL.is_slash "/") with true. cbn iota.
  pose proof (path_state_written s segs [] H) as P. cbn [app] in P.
  inversion H as [| ? ? [Hs Ha] _]; subst.
  destruct (list_ascii_of_string (s ++ path_of segs)) as [| c rest] eqn:L.
  - destruct s; [contradiction | discriminate L].
  - assert (URL.is_slash c = false) as NS.
    { destruct s as [| c0 s]; [contradiction |]. cbn in L. injection L as <- _.
      unfold alphanumeric in Ha. cbn in Ha. apply andb_prop in Ha. destruct Ha as [Hc _].
      now destruct (alphanumeric_char c0 Hc). }
    rewrite NS, P. now rewrite (serialize_written (s :: segs)).
Qed.

Lemma apiFetch_written (segs : list string) :
  segs <> [] -> Forall (fun s => s <> EmptyString /\ alphanumeric s = true) segs ->
  apiFetch (path_of segs) = Returned (route segs).
Proof.
  intros Hne H. unfold apiFetch. rewrite (pathname_written segs Hne H).
  rewrite parts_of_written_path_plain; [reflexivity |].
  eapply Forall_impl; [| exact H]. intros s [N A]. split; [exact N |].
  now apply alphanumeric_slash_free.
Qed.

(** ** Requests with an ordinary id *)

(** X8.  For every non-empty id made of letters and digits, the two
    requests the dashboard builds from an id reach their route:
    [/companies/{id}/accounts] is answered with status 200 and the lookup
    of the accounts of [id], [/accounts/{id}/data] with status 200 and the
    lookup of the quotes of [id]. *)
Theorem id_requests_are_served (id : string) :
  id <> EmptyString -> alphanumeric id = true ->
  apiFetch ("/companies/" ++ id ++ "/accounts") =
    Returned {| status := 200; json := listAccounts (Some id) |} /\
  apiFetch ("/accounts/" ++ id ++ "/data") =
    Returned {| status := 200; json := getAccountQuotes (Some id) |}.
Proof.
  intros Hne Ha.
  assert (Forall (fun s => s <> EmptyString /\ alphanumeric s = true) ["companies"; id; "accounts"]) as F1
    by (repeat constructor; try discriminate; assumption).
  assert (Forall (fun s => s <> EmptyString /\ alphanumeric s = true) ["accounts"; id; "data"]) as F2
    by (repeat constructor; try discriminate; assumption).
  split.
  - change ("/companies/" ++ id ++ "/accounts")%string with (path_of ["companies"; id; "accounts"]).
    now rewrite (apiFetch_written ["companies"; id; "accounts"] ltac:(discriminate) F1).
  - change ("/accounts/" ++ id ++ "/data")%string with (path_of ["accounts"; id; "data"]).
    now rewrite (apiFetch_written ["accounts"; id; "data"] ltac:(discriminate) F2).
Qed.

Lemma id_requests_are_served_witness :
  "b2" <> EmptyString /\ alphanumeric "b2" = true /\
  apiFetch ("/companies/" ++ "b2" ++ "/accounts") =
    Returned {| status := 200; json := listAccounts (Some "b2") |} /\
  apiFetch ("/accounts/" ++ "b2" ++ "/data") =
    Returned {| status := 200; json := getAccountQuotes (Some "b2") |}.
Proof.
  split; [discriminate |]. split; [reflexivity |].
  apply (id_requests_are_served "b2"); [discriminate | reflexivity].
Defined.

(** X9.  Missing means empty, for an ordinary id: when a non-empty id made
    of letters and digits is not the name of a member of [Object.prototype]
    and is not a key of the store, [callApi] returns the empty list of
    accounts, respectively the quote set with no quotes; it does not
    throw. *)
Theorem missing_id_gets_empty_answer (id : string) (st : Store) :
  id <> EmptyString -> alphanumeric id = true -> JSObject.inherited id = false ->
  (JSObject.own (accounts st) id = None ->
   callApi ("/companies/" ++ id ++ "/accounts") st = Returned (Accounts [])) /\
  (JSObject.own (accountData st) id = None ->
   callApi ("/accounts/" ++ id ++ "/data") st =
   Returned (Data {| AccountData.stocks := [] |})).
Proof.
  intros Hne Ha Hi.
  destruct (unknown_ids_give_empty id st Hi) as [LA GA].
  assert (Forall (fun s => s <> EmptyString /\ alphanumeric s = true) ["companies"; id; "accounts"]) as F1
    by (repeat constructor; try discriminate; assumption).
  assert (Forall (fun s => s <> EmptyString /\ alphanumeric s = true) ["accounts"; id; "data"]) as F2
    by (repeat constructor; try discriminate; assumption).
  split; intro O; unfold callApi.
  - change ("/companies/" ++ id ++ "/accounts")%string with (path_of ["companies"; id; "accounts"]).
    rewrite (apiFetch_written ["companies"; id; "accounts"] ltac:(discriminate) F1). cbn. now rewrite (LA O).
  - change ("/accounts/" ++ id ++ "/data")%string with (path_of ["accounts"; id; "data"]).
    rewrite (apiFetch_written ["accounts"; id; "data"] ltac:(discriminate) F2). cbn. now rewrite (GA O).
Qed.

Lemma missing_id_gets_empty_answer_witness :
  "zz9" <> EmptyString /\ alphanumeric "zz9" = true /\ JSObject.inherited "zz9" = false /\
  (JSObject.own (accounts store0) "zz9" = None ->
   callApi ("/companies/" ++ "zz9" ++ "/accounts") store0 = Returned (Accounts [])) /\
  (JSObject.own (accountData store0) "zz9" = None ->
   callApi ("/accounts/" ++ "zz9" ++ "/data") store0 =
   Returned (Data {| AccountData.stocks := [] |})).
Proof.
  split; [discriminate |]. split; [reflexivity |]. split; [reflexivity |].
  apply (missing_id_gets_empty_answer "zz9" store0); [discriminate | reflexivity | reflexivity].
Defined.

(** X10.  What a poll of the dashboard receives: at initialization and
    after any number of firings of the timer, [callApi] on
    [/accounts/{id}/data] returns, for each account of the directory, a
    quote set with the tickers of that account in order. *)
Theorem poll_returns_the_account_quotes (env : Env) (n : nat) :
  Forall (fun acc =>
            exists d,
              callApi ("/accounts/" ++ Account.id acc ++ "/data") (store (after_ticks env n))
                = Returned (Data d) /\
              map Quote.ticker (AccountData.stocks d) = Account.stocks acc)
         (all_accounts store0).
Proof.
  pose proof (running_tickers env n) as T. rewrite boot_tickers in T.
  assert (forall id ts,
             id <> EmptyString -> alphanumeric id = true ->
             JSObject.own (tickers (accountData (store (after_ticks env n)))) id = Some ts ->
             exists d,
               callApi ("/accounts/" ++ id ++ "/data") (store (after_ticks env n))
                 = Returned (Data d) /\
               map Quote.ticker (AccountData.stocks d) = ts) as G.
  { intros id ts Hne Ha. rewrite own_tickers. unfold callApi.
    change ("/accounts/" ++ id ++ "/data")%string with (path_of ["accounts"; id; "data"]).
    assert (Forall (fun s => s <> EmptyString /\ alphanumeric s = true) ["accounts"; id; "data"]) as F
      by (repeat constructor; try discriminate; assumption).
    rewrite (apiFetch_written ["accounts"; id; "data"] ltac:(discriminate) F).
    cbn. unfold getAccountQuotes, JSObject.get. cbn [property_key].
    destruct (JSObject.own (accountData (store (after_ticks env n))) id) as [d |]; cbn;
      [| discriminate].
    intro E. injection E as <-. now exists d. }
  rewrite T in G. unfold all_accounts. cbn.
  repeat constructor; apply G; try discriminate; reflexivity.
Qed.

(** ** Two decimals *)

Lemma toFixed2_large (x : Q) : inject_Z (10 ^ 21) <= x -> toFixed2 x = x.
Proof.
  intro H. unfold toFixed2.
  assert (Qle_bool (inject_Z (10 ^ 21)) (Qabs x) = true) as E.
  { apply Qle_bool_iff. eapply Qle_trans; [exact H | apply Qle_Qabs]. }
  now rewrite E.
Qed.

(** X11.  Every price the server holds has at most two decimals, as long
    as it is below [10^21]; from there on [toFixed] no longer rounds. *)
Theorem prices_have_two_decimals (env : Env) (n : nat) :
  (forall k, 0 <= random env k /\ random env k < 1) ->
  all_quotes (fun q => two_decimals (Quote.price q) \/ inject_Z (10 ^ 21) <= Quote.price q)
             (store (after_ticks env n)).
Proof.
  intro Hr. destruct n as [| n]; cbn [after_ticks].
  - apply boot_all_quotes with (drawn := fun r => 0 <= r /\ r < 1); [exact Hr |].
    intros r t ticker [R0 R1]. cbn. left. now apply seed_range.
  - apply tick_all_quotes
      with (drawn := fun r => 0 <= r /\ r < 1) (P := fun q => 1 # 2 <= Quote.price q);
      [exact Hr | | now apply price_at_least_half].
    intros r t q [R0 R1] Pq. unfold perturb. cbn [Quote.price].
    set (p := Quote.price q) in *. set (x := p + delta r p).
    destruct (delta_bound r p R0 R1) as [L U]; [lra |].
    assert (0 <= x) as X0 by (unfold x; lra).
    assert (1 # 100 <= toFixed2 x) as T.
    { apply Qle_trans with (inject_Z 50 / 100); [vm_compute; discriminate |].
      apply toFixed2_ge; [exact X0 | | vm_compute; discriminate].
      change (inject_Z 50) with 50. unfold x. lra. }
    rewrite (Math_max_r _ _ T).
    destruct (Qlt_le_dec x (inject_Z (10 ^ 21))) as [Small | Large].
    + left. now apply toFixed2_two_decimals.
    + right. now rewrite (toFixed2_large x Large).
Qed.

Lemma prices_have_two_decimals_witness :
  (forall k, 0 <= random steady k /\ random steady k < 1) /\
  all_quotes (fun q => two_decimals (Quote.price q) \/ inject_Z (10 ^ 21) <= Quote.price q)
             (store (after_ticks steady 2)).
Proof.
  split; [exact steady_draws | exact (prices_have_two_decimals steady 2 steady_draws)].
Defined.

(** ** What the router does not look at *)

Lemma quiet_char (c : ascii) :
  URL.is_c0_or_space c = false -> URL.is_tab_or_newline c = false.
Proof.
  destruct c as [b0 b1 b2 b3 b4 b5 b6 b7].
  destruct b0, b1, b2, b3, b4, b5, b6, b7; vm_compute; intro H;
    try discriminate H; reflexivity.
Qed.

Lemma quiet_chars (s : string) :
  quiet s = true ->
  Forall (fun c => URL.is_c0_or_space c = false /\ URL.is_tab_or_newline c = false)
         (list_ascii_of_string s).
Proof.
  unfold quiet. induction (list_ascii_of_string s) as [| c l IH]; cbn; [constructor |].
  intro H. apply andb_prop in H. destruct H as [Hc Hl].
  apply negb_true_iff in Hc. constructor; [| now apply IH].
  split; [exact Hc | now apply quiet_char].
Qed.

(** The path state on a written path followed by [tail], when [tail]
    closes the last segment and leaves [extra] behind it. *)
Lemma path_state_written_then (tail : list ascii) (extra : list (list ascii))
      (s : string) (segs : list string) (path : list (list ascii)) :
  (forall path' seg, seg <> [] ->
     forallb (fun c => URL.is_alpha c || URL.is_digit c) seg = true ->
     URL.path_state tail path' seg = (path' ++ [seg] ++ extra)%list) ->
  Forall (fun s => s <> EmptyString /\ alphanumeric s = true) (s :: segs) ->
  URL.path_state (list_ascii_of_string (s ++ path_of segs) ++ tail)%list path [] =
  (path ++ map list_ascii_of_string (s :: segs) ++ extra)%list.
Proof.
  intro Htail. revert s path. induction segs as [| s' segs IH]; intros s path H;
    inversion H as [| ? ? [Hne Hs] Hrest]; subst; rewrite list_ascii_app, <- app_assoc;
    rewrite path_state_segment by exact Hs; cbn [app path_of list_ascii_of_string].
  - rewrite Htail; [reflexivity | now apply nonempty_chars | exact Hs].
  - cbn [URL.path_state]. change (URL.is_slash "/") with true. cbn iota.
    rewrite close_plain_segment; [| now apply nonempty_chars | exact Hs].
    rewrite (IH s' _ Hrest). cbn. now rewrite <- app_assoc.
Qed.

Lemma pathname_written_then (tail : string) (extra : list (list ascii)) (segs : list string) :
  (forall path' seg, seg <> [] ->
     forallb (fun c => URL.is_alpha c || URL.is_digit c) seg = true ->
     URL.path_state (list_ascii_of_string tail) path' seg = (path' ++ [seg] ++ extra)%list) ->
  quiet tail = true ->
  segs <> [] -> Forall (fun s => s <> EmptyString /\ alphanumeric s = true) segs ->
  URL.pathname (path_of segs ++ tail) =
  URL.Pathname (URL.serialize (map list_ascii_of_string segs ++ extra)%list).
Proof.
  intros Htail Q Hne H. destruct segs as [| s segs]; [contradiction |].
  unfold URL.pathname. rewrite list_ascii_app.
  rewrite preprocess_quiet
    by (apply Forall_app; split; [now apply path_chars_quiet | now apply quiet_chars]).
  cbn [path_of list_ascii_of_string app]. change (URL.has_scheme ("/"%char :: ?l)) with false.
  cbn iota. change (URL.is_slash "/") with true. cbn iota.
  pose proof (path_state_written_then _ extra s segs [] Htail H) as P. cbn [app] in P.
  inversion H as [| ? ? [Hs Ha] _]; subst.
  destruct (list_ascii_of_string (s ++ path_of segs) ++ list_ascii_of_string tail)%list
    as [| c rest] eqn:L.
  - destruct s; [contradiction | discriminate L].
  - assert (URL.is_slash c = false) as NS.
    { destruct s as [| c0 s]; [contradiction |]. cbn in L. injection L as <- _.
      unfold alphanumeric in Ha. cbn in Ha. apply andb_prop in Ha. destruct Ha as [Hc _].
      now destruct (alphanumeric_char c0 Hc). }
    now rewrite NS, P.
Qed.

Lemma path_of_app (l1 l2 : list string) :
  path_of (l1 ++ l2)%list = (path_of l1 ++ path_of l2)%string.
Proof.
  induction l1 as [| s l1 IH]; cbn; [reflexivity |]. rewrite IH.
  f_equal. clear. induction s as [| c s IHs]; cbn; [reflexivity | now rewrite IHs].
Qed.

Lemma plain_segments (segs : list string) :
  Forall (fun s => s <> EmptyString /\ alphanumeric s = true) segs ->
  Forall (fun s => s <> EmptyString /\ slash_free s = true) segs.
Proof.
  intro H. eapply Forall_impl; [| exact H]. intros s [N A]. split; [exact N |].
  now apply alphanumeric_slash_free.
Qed.

(** X12.  The router looks at the segments of the pathname only: behind a
    path written from non-empty segments of letters and digits, a query
    string, a fragment or a trailing slash changes nothing in the
    answer. *)
Theorem query_fragment_and_trailing_slash_are_ignored (segs : list string) (rest : string) :
  segs <> [] -> Forall (fun s => s <> EmptyString /\ alphanumeric s = true) segs ->
  quiet rest = true ->
  apiFetch (path_of segs ++ String "?" rest) = apiFetch (path_of segs) /\
  apiFetch (path_of segs ++ String "#" rest) = apiFetch (path_of segs) /\
  apiFetch (path_of segs ++ "/") = apiFetch (path_of segs).
Proof.
  intros Hne H Q. rewrite (apiFetch_written segs Hne H).
  assert (forall c, URL.ends_path c = true -> URL.is_slash c = false ->
                    URL.is_c0_or_space c = false ->
                    apiFetch (path_of segs ++ String c rest) = Returned (route segs)) as Ends.
  { intros c E NS NC. unfold apiFetch.
    rewrite (pathname_written_then (String c rest) [] segs); [| | | exact Hne | exact H].
    - rewrite app_nil_r, serialize_written.
      now rewrite (parts_of_written_path_plain segs (plain_segments segs H)).
    - intros path' seg Hseg Ha. cbn [list_ascii_of_string URL.path_state].
      rewrite NS, E. cbn [app]. now apply close_plain_segment.
    - unfold quiet in *. cbn. now rewrite NC, Q. }
  split; [apply Ends; reflexivity |]. split; [apply Ends; reflexivity |].
  unfold apiFetch.
  rewrite (pathname_written_then "/" [[]] segs); [| | reflexivity | exact Hne | exact H].
  - change [[]] with (map list_ascii_of_string [EmptyString]). rewrite <- map_app.
    rewrite serialize_written.
    assert (parts_of (path_of (segs ++ [EmptyString])) = segs) as P.
    { unfold parts_of. rewrite split_path_of.
      - destruct (segs ++ [EmptyString])%list eqn:L; [now destruct segs |]. rewrite <- L.
        pose proof (parts_of_written_path_plain segs (plain_segments segs H)) as R.
        unfold parts_of in R. rewrite split_path_of in R
          by (eapply Forall_impl; [| exact (plain_segments segs H)]; now intros s0 [_ S0]).
        destruct segs as [| s1 segs1]; [contradiction |].
        unfold filter_Boolean in *. cbn [filter String.eqb negb] in *.
        rewrite filter_app. cbn. rewrite app_nil_r. exact R.
      - apply Forall_app. split; [| repeat constructor].
        eapply Forall_impl; [| exact (plain_segments segs H)]. now intros s0 [_ S0]. }
    now rewrite P.
  - intros path' seg Hseg Ha. cbn [list_ascii_of_string URL.path_state].
    change (URL.is_slash "/") with true. cbn iota.
    rewrite (close_plain_segment seg path' true Hseg Ha). cbn. now rewrite <- app_assoc.
Qed.

Lemma query_fragment_and_trailing_slash_are_ignored_witness :
  ["companies"] <> [] /\
  Forall (fun s => s <> EmptyString /\ alphanumeric s = true) ["companies"] /\
  quiet "page=2" = true /\
  apiFetch (path_of ["companies"] ++ String "?" "page=2") = apiFetch (path_of ["companies"]) /\
  apiFetch (path_of ["companies"] ++ String "#" "page=2") = apiFetch (path_of ["companies"]) /\
  apiFetch (path_of ["companies"] ++ "/") = apiFetch (path_of ["companies"]).
Proof.
  assert (Forall (fun s => s <> EmptyString /\ alphanumeric s = true) ["companies"]) as H
    by (repeat constructor; discriminate).
  split; [discriminate |]. split; [exact H |]. split; [reflexivity |].
  exact (query_fragment_and_trailing_slash_are_ignored ["companies"] "page=2"
           ltac:(discriminate) H eq_refl).
Defined.
